(** * Sentence-aligned, token-bounded chunking (functions/chroma_setup.py)

    A shallow embedding of the chunking engine of [ChromaVectorDatabase]:
    [_count_tokens], [_clean_text], [_improved_sentence_split] and
    [_smart_chunk_text], together with the part of Python's [str] and [re]
    behaviour these methods rely on.

    A Python [str] is a sequence of Unicode code points, so a string is a
    list of code points here; ASCII literals are written with [py]. *)

From Stdlib Require Import String Ascii.
From Stdlib Require Import List ZArith NArith Bool Lia.
Import ListNotations.

Set Implicit Arguments.

(** ** Strings *)

Definition char := N.
Definition str := list char.

(** An ASCII literal as a Python string. *)
Definition py (s : string) : str := map N_of_ascii (list_ascii_of_string s).

(** [len(text)] *)
Definition len (t : str) : Z := Z.of_nat (length t).

Module Chr.
Definition newline : char := 10%N.
Definition space : char := 32%N.
Definition bang : char := 33%N.
Definition quote : char := 34%N.
Definition apostrophe : char := 39%N.
Definition dot : char := 46%N.
Definition question : char := 63%N.
Definition lbracket : char := 91%N.
Definition rbracket : char := 93%N.
Definition underscore : char := 95%N.
(** The three characters of the mis-decoded punctuation sequences. *)
Definition a_circumflex : char := 0xE2%N.
Definition euro : char := 0x20AC%N.
Definition trade_mark : char := 0x2122%N.
Definition oe_ligature : char := 0x153%N.
End Chr.

(** ** Character classes

    Whitespace ([str.isspace], the class [\s] of [re] on [str] patterns) is a
    short, stable list and is written out.  The decimal digits [\d], the word
    characters [\w] and the lower-case mapping used by [re.IGNORECASE] are fixed
    on ASCII; beyond ASCII they come from the Unicode database of the running
    interpreter, which is a parameter of the development. *)

Definition isspace (c : char) : bool :=
  ((9 <=? c) && (c <=? 13) || (28 <=? c) && (c <=? 32)
   || (c =? 0x85) || (c =? 0xA0) || (c =? 0x1680)
   || (0x2000 <=? c) && (c <=? 0x200A)
   || (c =? 0x2028) || (c =? 0x2029) || (c =? 0x202F) || (c =? 0x205F)
   || (c =? 0x3000))%N.

Definition is_ascii (c : char) : bool := (c <? 128)%N.
Definition ascii_isdigit (c : char) : bool := ((48 <=? c) && (c <=? 57))%N.
Definition ascii_isupper (c : char) : bool := ((65 <=? c) && (c <=? 90))%N.
Definition ascii_islower (c : char) : bool := ((97 <=? c) && (c <=? 122))%N.
Definition ascii_isalpha (c : char) : bool := ascii_isupper c || ascii_islower c.

Record UnicodeData := {
  nonascii_decimal : char -> bool;   (* category Nd beyond ASCII *)
  nonascii_word : char -> bool;      (* alphanumerics beyond ASCII *)
  nonascii_tolower : char -> char    (* simple lower-case mapping beyond ASCII *)
}.

(** The database that knows of no character beyond ASCII. *)
Definition ascii_only : UnicodeData :=
  {| nonascii_decimal := fun _ => false;
     nonascii_word := fun _ => false;
     nonascii_tolower := fun c => c |}.

Section CharacterClasses.
Variable ucd : UnicodeData.

(** [\d] *)
Definition isdecimal (c : char) : bool :=
  if is_ascii c then ascii_isdigit c else nonascii_decimal ucd c.

(** [\w] *)
Definition isword (c : char) : bool :=
  if is_ascii c
  then ascii_isalpha c || ascii_isdigit c || (c =? Chr.underscore)%N
  else nonascii_word ucd c.

Definition tolower (c : char) : char :=
  if is_ascii c then (if ascii_isupper c then c + 32 else c)%N
  else nonascii_tolower ucd c.
End CharacterClasses.

(** The extra case-insensitive equivalents [re] adds to a lower-case letter
    (its table [_EXTRA_CASES]); for an ASCII letter only [i] and [s] have
    one: dotless i and long s. *)
Definition ignorecase_fixes (lo : char) : list char :=
  if (lo =? 0x69)%N then [0x131%N]
  else if (lo =? 0x73)%N then [0x17F%N]
  else [].

(** ** Python's string methods *)

Module Str.
(** Length of the longest prefix whose characters all satisfy [f]. *)
Fixpoint run (f : char -> bool) (t : str) : nat :=
  match t with
  | c :: r => if f c then S (run f r) else 0
  | [] => 0
  end.

Fixpoint lstrip (t : str) : str :=
  match t with
  | c :: r => if isspace c then lstrip r else t
  | [] => []
  end.

Definition rstrip (t : str) : str := rev (lstrip (rev t)).

(** [text.strip()] *)
Definition strip (t : str) : str := rstrip (lstrip t).

(** [sep.join(parts)] *)
Fixpoint join (sep : str) (parts : list str) : str :=
  match parts with
  | [] => []
  | [p] => p
  | p :: ps => p ++ sep ++ join sep ps
  end.

(** [text.startswith(w)] *)
Fixpoint starts_with (w t : str) : bool :=
  match w, t with
  | [], _ => true
  | a :: w', c :: r => (a =? c)%N && starts_with w' r
  | _ :: _, [] => false
  end.


(** A string with a character that is not whitespace. *)
Definition has_ink (t : str) : bool :=
  existsb (fun c => negb (isspace c)) t.

(** Truth value of a string: non-empty. *)
Definition truthy (t : str) : bool :=
  match t with [] => false | _ :: _ => true end.
End Str.

(** ** The part of [re] the program uses

    A compiled pattern is represented by what it does at one position of the
    subject: given the character before the position ([None] at the start of
    the subject) and the text from the position on, it returns the length of
    the match that starts there, if there is one.  The drivers [Re.sub] and
    [Re.split] scan the subject from left to right for non-overlapping
    matches, as [re.sub] and [re.split] do.  No pattern of the program matches
    the empty string, and the drivers treat a match of length 0 as no match. *)

Module Re.
Definition pattern := option char -> str -> option nat.

Section Drivers.
Variable p : pattern.

(** [skip] counts the characters of the current match still to be
    consumed. *)
Fixpoint sub_from (repl : str) (prev : option char) (skip : nat) (t : str)
  : str :=
  match t with
  | [] => []
  | c :: r =>
    match skip with
    | S k => sub_from repl (Some c) k r
    | O =>
      match p prev t with
      | Some (S n) => repl ++ sub_from repl (Some c) n r
      | _ => c :: sub_from repl (Some c) O r
      end
    end
  end.

(** [re.sub(p, repl, text)] for a replacement without back-references. *)
Definition sub (repl : str) (t : str) : str := sub_from repl None 0 t.

(** The piece being read and the pieces after it. *)
Fixpoint split_from (prev : option char) (skip : nat) (t : str)
  : str * list str :=
  match t with
  | [] => ([], [])
  | c :: r =>
    match skip with
    | S k => split_from (Some c) k r
    | O =>
      match p prev t with
      | Some (S n) =>
        let '(piece, pieces) := split_from (Some c) n r in
        ([], piece :: pieces)
      | _ =>
        let '(piece, pieces) := split_from (Some c) O r in
        (c :: piece, pieces)
      end
    end
  end.

(** [re.split(p, text)] for a pattern without groups. *)
Definition split (t : str) : list str :=
  let '(piece, pieces) := split_from None 0 t in piece :: pieces.
End Drivers.

(** A literal word. *)
Definition literal (w : str) : pattern :=
  fun _ t => if Str.starts_with w t then Some (length w) else None.

(** [p|q]: the left alternative is tried first. *)
Definition alt (p q : pattern) : pattern :=
  fun prev t =>
    match p prev t with
    | Some n => Some n
    | None => q prev t
    end.

(** [\s+]: the whole run of whitespace at the position. *)
Definition whitespace_run : pattern :=
  fun _ t =>
    match Str.run isspace t with
    | O => None
    | n => Some n
    end.

(** [\.{3,}]: the whole run of periods, when it has three or more. *)
Definition periods_3_or_more : pattern :=
  fun _ t =>
    let n := Str.run (N.eqb Chr.dot) t in
    if (3 <=? n)%nat then Some n else None.

(** Index of the last line feed among the first [n] characters. *)
Fixpoint last_newline (n : nat) (t : str) : option nat :=
  match n, t with
  | S k, c :: r =>
    match last_newline k r with
    | Some i => Some (S i)
    | None => if (c =? Chr.newline)%N then Some 0%nat else None
    end
  | _, _ => None
  end.

(** [\n\s*\n]: a line feed, then whitespace up to the last line feed of the
    whitespace run that follows (the star is greedy and gives back
    characters until a line feed follows it). *)
Definition paragraph_break : pattern :=
  fun _ t =>
    match t with
    | c :: r =>
      if (c =? Chr.newline)%N
      then match last_newline (Str.run isspace r) r with
           | Some i => Some (i + 2)%nat
           | None => None
           end
      else None
    | [] => None
    end.

Definition is_sentence_end (c : char) : bool :=
  ((c =? Chr.dot) || (c =? Chr.bang) || (c =? Chr.question))%N.

(** [(?<=[.!?])\s+(?=[A-Z])]: after a sentence-ending mark, the whole run
    of whitespace, when an ASCII capital follows it.  Giving back whitespace
    cannot help: the character after a shorter run is whitespace, not a
    capital. *)
Definition sentence_boundary : pattern :=
  fun prev t =>
    match prev with
    | Some b =>
      if is_sentence_end b
      then match Str.run isspace t with
           | O => None
           | n => match nth_error t n with
                  | Some u => if ascii_isupper u then Some n else None
                  | None => None
                  end
           end
      else None
    | None => None
    end.

Section Unicode.
Variable ucd : UnicodeData.

(** [\[\d+\]]: a bracket, the whole run of digits, a closing bracket.
    The closing bracket is no digit, so giving back digits cannot help. *)
Definition citation : pattern :=
  fun _ t =>
    match t with
    | c :: r =>
      if (c =? Chr.lbracket)%N
      then match Str.run (isdecimal ucd) r with
           | O => None
           | n => match nth_error r n with
                  | Some e => if (e =? Chr.rbracket)%N
                              then Some (n + 2)%nat else None
                  | None => None
                  end
           end
      else None
    | [] => None
    end.

(** One-character items of a pattern compiled with [re.IGNORECASE]. *)
Inductive atom :=
| Literal (c : char)         (* an uncased character, or an escaped one *)
| LiteralIgnore (c : char)   (* a cased letter *)
| AnyChar.                   (* an unescaped period: all but line feed *)

Definition atom_matches (a : atom) (c : char) : bool :=
  match a with
  | Literal x => (c =? x)%N
  | LiteralIgnore x =>
    let lo := tolower ucd x in
    existsb (N.eqb (tolower ucd c)) (lo :: ignorecase_fixes lo)
  | AnyChar => negb (c =? Chr.newline)%N
  end.

Fixpoint match_atoms (l : list atom) (t : str) : bool :=
  match l, t with
  | [], _ => true
  | a :: l', c :: r => atom_matches a c && match_atoms l' r
  | _ :: _, [] => false
  end.

(** What the pattern compiler makes of the characters of an abbreviation
    pasted unescaped into a pattern: a period is the wildcard, a letter is
    matched in either case.  The abbreviations of the program hold ASCII
    letters and periods only. *)
Definition compile_ignorecase (w : str) : list atom :=
  map (fun c => if (c =? Chr.dot)%N then AnyChar
                else if ascii_isalpha c then LiteralIgnore c
                else Literal c) w.

Definition is_word_at (o : option char) : bool :=
  match o with
  | Some c => isword ucd c
  | None => false
  end.

(** [\b] *)
Definition word_boundary (prev : option char) (t : str) : bool :=
  xorb (is_word_at prev) (is_word_at (hd_error t)).

(** [f'\\b{abbr}\\.'] with [flags=re.IGNORECASE] *)
Definition abbreviation (abbr : str) : pattern :=
  fun prev t =>
    if word_boundary prev t
       && match_atoms (compile_ignorecase abbr ++ [Literal Chr.dot]) t
    then Some (length abbr + 1)%nat
    else None.
End Unicode.
End Re.

(** ** The methods of [ChromaVectorDatabase] *)

(** The fields the chunking methods read.  [tokenizer] is the encoder of the
    loaded vocabulary, or [None] when loading it failed. *)
Record ChromaVectorDatabase := {
  MAX_TOKENS_PER_CHUNK : Z;
  OVERLAP_TOKENS : Z;
  tokenizer : option (str -> list N)
}.

(** The values [__init__] sets. *)
Definition init (tok : option (str -> list N)) : ChromaVectorDatabase :=
  {| MAX_TOKENS_PER_CHUNK := 400; OVERLAP_TOKENS := 50; tokenizer := tok |}.

Definition _count_tokens (self : ChromaVectorDatabase) (text : str) : Z :=
  match tokenizer self with
  | Some encode => Z.of_nat (length (encode text))
  | None => (len text / 4)%Z
  end.

Definition DOT : str := py "<DOT>".

Definition abbreviations : list str :=
  map py
    ["Mr"; "Mrs"; "Ms"; "Dr"; "Prof"; "Sr"; "Jr"; "Inc"; "Ltd"; "Corp";
     "vs"; "etc"; "i.e"; "e.g"; "a.m"; "p.m"; "Ph.D"; "M.D";
     "Gov"; "Sen"; "Rep"; "Pres"; "VP"; "CEO"; "CFO"]%string.

Section Text.
Variable ucd : UnicodeData.

Definition _clean_text (text : str) : str :=
  let text := Re.sub Re.whitespace_run [Chr.space] text in
  let text := Re.sub (Re.citation ucd) [] text in
  let text :=
    Re.sub (Re.literal [Chr.a_circumflex; Chr.euro; Chr.trade_mark])
           [Chr.apostrophe] text in
  let text :=
    Re.sub (Re.alt (Re.literal [Chr.a_circumflex; Chr.euro; Chr.oe_ligature])
                   (Re.literal [Chr.a_circumflex; Chr.euro]))
           [Chr.quote] text in
  let text := Re.sub Re.periods_3_or_more (py "...") text in
  Str.strip text.

(** The inner loop over the parts of one piece. *)
Definition restore_parts (parts : list str) : list str :=
  flat_map
    (fun part =>
       if Str.truthy (Str.strip part)
       then [Str.strip (Re.sub (Re.literal DOT) [Chr.dot] part)]
       else [])
    parts.

Definition _improved_sentence_split (text : str) : list str :=
  let text :=
    fold_left
      (fun text abbr => Re.sub (Re.abbreviation ucd abbr) (abbr ++ DOT) text)
      abbreviations text in
  let sentences := Re.split Re.sentence_boundary text in
  flat_map
    (fun sentence => restore_parts (Re.split Re.paragraph_break sentence))
    sentences.
End Text.

(** What a method does: it returns a value or raises. *)
Inductive exn := ZeroDivisionError.

Inductive result (A : Type) :=
| Ok (a : A)
| Raise (e : exn).
Arguments Ok {A} a.
Arguments Raise {A} e.

Definition bind {A B : Type} (r : result A) (k : A -> result B) : result B :=
  match r with
  | Ok a => k a
  | Raise e => Raise e
  end.

(** [sum(...)] of integers *)
Definition Zsum (l : list Z) : Z := fold_right Z.add 0%Z l.

(** [a / b] is computed for a diagnostic only: the model keeps whether it
    raises, not the float. *)
Definition truediv (a b : Z) : result unit :=
  if (b =? 0)%Z then Raise ZeroDivisionError else Ok tt.

Section Chunking.
Variable self : ChromaVectorDatabase.

(** The state of the scan over the sentences. *)
Record scan_state := {
  chunks : list str;
  current_sentences : list str;
  current_tokens : Z
}.

Definition scan_start : scan_state :=
  {| chunks := []; current_sentences := []; current_tokens := 0 |}.

(** The loop over [reversed(current_sentences)], run on the reversed
    buffer; it stops at the first sentence that does not fit. *)
Fixpoint overlap_loop (reversed : list str)
         (overlap_sentences : list str) (overlap_tokens : Z)
  : list str * Z :=
  match reversed with
  | [] => (overlap_sentences, overlap_tokens)
  | sent :: more =>
    let sent_tokens := _count_tokens self sent in
    if (overlap_tokens + sent_tokens <=? OVERLAP_TOKENS self)%Z
    then overlap_loop more (sent :: overlap_sentences)
                      (overlap_tokens + sent_tokens)
    else (overlap_sentences, overlap_tokens)
  end.

(** The overlap sentences and their token total for a finalized buffer. *)
Definition overlap (buffer : list str) : list str * Z :=
  overlap_loop (rev buffer) [] 0%Z.

Definition overlap_seed (buffer : list str) : list str :=
  fst (overlap buffer).

Definition oversized (sentence : str) : bool :=
  (_count_tokens self sentence >? MAX_TOKENS_PER_CHUNK self)%Z.

Definition nonempty (A : Type) (l : list A) : bool :=
  match l with [] => false | _ :: _ => true end.

(** The test that finalizes the current chunk. *)
Definition finalizes (st : scan_state) (sentence : str) : bool :=
  (current_tokens st + _count_tokens self sentence
     >? MAX_TOKENS_PER_CHUNK self)%Z
  && nonempty (current_sentences st).

(** One iteration of the loop over the sentences. *)
Definition scan_step (st : scan_state) (sentence : str) : scan_state :=
  let sentence_tokens := _count_tokens self sentence in
  if oversized sentence then st
  else if finalizes st sentence then
    let chunk_text := Str.join [Chr.space] (current_sentences st) in
    let '(overlap_sentences, overlap_tokens) :=
      overlap (current_sentences st) in
    {| chunks := chunks st ++ [chunk_text];
       current_sentences := overlap_sentences ++ [sentence];
       current_tokens := (overlap_tokens + sentence_tokens)%Z |}
  else
    {| chunks := chunks st;
       current_sentences := current_sentences st ++ [sentence];
       current_tokens := (current_tokens st + sentence_tokens)%Z |}.

Definition scan (sentences : list str) : scan_state :=
  fold_left scan_step sentences scan_start.

(** The chunks once the last buffer is added. *)
Definition final_chunks (st : scan_state) : list str :=
  if nonempty (current_sentences st)
  then chunks st ++ [Str.join [Chr.space] (current_sentences st)]
  else chunks st.

(** The part of [_smart_chunk_text] after the sentence split. *)
Definition chunk_sentences (sentences : list str) : result (list str) :=
  if negb (nonempty sentences) then Ok []
  else
    let chunks := final_chunks (scan sentences) in
    let valid_chunks :=
      filter (fun chunk => Str.truthy (Str.strip chunk)) chunks in
    bind (if nonempty valid_chunks
          then truediv (Zsum (map (_count_tokens self) valid_chunks))
                       (Z.of_nat (length valid_chunks))
          else Ok tt)
         (fun _ => Ok valid_chunks).

(** The sentence buffers behind the chunks: the buffers the scan finalizes
    from [st] on, in order, the last one included. *)
Fixpoint buffers_from (st : scan_state) (sentences : list str)
  : list (list str) :=
  match sentences with
  | [] => if nonempty (current_sentences st)
          then [current_sentences st] else []
  | sentence :: rest =>
    if negb (oversized sentence) && finalizes st sentence
    then current_sentences st :: buffers_from (scan_step st sentence) rest
    else buffers_from (scan_step st sentence) rest
  end.

Definition chunk_buffers (sentences : list str) : list (list str) :=
  buffers_from scan_start sentences.

Definition sentence_tokens (sentences : list str) : Z :=
  Zsum (map (_count_tokens self) sentences).

(** The running total is the token total of the buffer. *)
Definition tokens_in_step (st : scan_state) : Prop :=
  current_tokens st = sentence_tokens (current_sentences st).

End Chunking.

Definition _smart_chunk_text (ucd : UnicodeData) (self : ChromaVectorDatabase)
           (text : str) : result (list str) :=
  let text := _clean_text ucd text in
  let sentences := _improved_sentence_split ucd text in
  chunk_sentences self sentences.

(** The sentences [_smart_chunk_text] scans. *)
Definition sentences_of (ucd : UnicodeData) (text : str) : list str :=
  _improved_sentence_split ucd (_clean_text ucd text).

(** ** Configurations and inputs of the examples *)

(** The object when the vocabulary could not be loaded. *)
Definition fallback : ChromaVectorDatabase := init None.

(** The same with the overlap switched off. *)
Definition no_overlap : ChromaVectorDatabase :=
  {| MAX_TOKENS_PER_CHUNK := 400; OVERLAP_TOKENS := 0; tokenizer := None |}.

(** A capital, [n] times the letter a, a period. *)
Definition long_sentence (n : nat) : str :=
  py "A" ++ repeat 97%N n ++ py ".".


(** Sentences of 1600, 200 and 1600 characters. *)
Definition three_sentences : str :=
  long_sentence 1598 ++ py " " ++ long_sentence 198 ++ py " "
  ++ long_sentence 1598.

(** A sentence of 1600 characters and two short ones. *)
Definition long_then_short : str :=
  long_sentence 1598 ++ py " Ok. Done now.".

(** ** Notions used to state the facts about [_clean_text] *)

(** [w] occurs in [t]. *)
Definition factor (w t : str) : Prop :=
  exists before after, t = before ++ w ++ after.







Definition mojibake_open_quote : str :=
  [Chr.a_circumflex; Chr.euro; Chr.oe_ligature].
Definition mojibake_quote : str := [Chr.a_circumflex; Chr.euro].







(** A text with every defect but a citation. *)
Definition untidy : str :=
  py "  Kumusta   ka....  " ++ mojibake_open_quote ++ py "Mabuti" ++ mojibake_quote
  ++ py ",  sabi niya  ".

(** Splitting conjunctions only. *)
Ltac splits := repeat match goal with |- _ /\ _ => split end.

(** * Facts about strings *)

Unset Implicit Arguments.

Lemma has_ink_app a b : Str.has_ink (a ++ b) = Str.has_ink a || Str.has_ink b.
Proof. apply existsb_app. Qed.

Lemma has_ink_rev t : Str.has_ink (rev t) = Str.has_ink t.
Proof.
  induction t as [|c t IH]; [reflexivity|].
  simpl rev. rewrite has_ink_app, IH. simpl. rewrite orb_false_r.
  apply orb_comm.
Qed.

Lemma has_ink_lstrip t : Str.has_ink (Str.lstrip t) = Str.has_ink t.
Proof.
  induction t as [|c t IH]; [reflexivity|].
  simpl. destruct (isspace c) eqn:Hc; [exact IH|].
  simpl. rewrite Hc. reflexivity.
Qed.

Lemma truthy_lstrip t : Str.truthy (Str.lstrip t) = Str.has_ink t.
Proof.
  induction t as [|c t IH]; [reflexivity|].
  simpl. destruct (isspace c); [exact IH | reflexivity].
Qed.

Lemma truthy_rev t : Str.truthy (rev t) = Str.truthy t.
Proof.
  destruct t as [|c t]; [reflexivity|].
  simpl. destruct (rev t); reflexivity.
Qed.

Lemma has_ink_strip t : Str.has_ink (Str.strip t) = Str.has_ink t.
Proof.
  unfold Str.strip, Str.rstrip.
  rewrite has_ink_rev, has_ink_lstrip, has_ink_rev, has_ink_lstrip.
  reflexivity.
Qed.

Lemma truthy_strip t : Str.truthy (Str.strip t) = Str.has_ink t.
Proof.
  unfold Str.strip, Str.rstrip.
  rewrite truthy_rev, truthy_lstrip, has_ink_rev, has_ink_lstrip.
  reflexivity.
Qed.

Lemma has_ink_join sep (parts : list str) s :
  In s parts -> Str.has_ink s = true -> Str.has_ink (Str.join sep parts) = true.
Proof.
  induction parts as [|p ps IH]; [contradiction|].
  intros [-> | Hin] Hs.
  - destruct ps; simpl; [assumption|].
    rewrite has_ink_app, Hs. reflexivity.
  - destruct ps as [|q ps]; [contradiction|].
    change (Str.join sep (p :: q :: ps))
      with (p ++ sep ++ Str.join sep (q :: ps)).
    rewrite !has_ink_app, (IH Hin Hs), !orb_true_r. reflexivity.
Qed.

(** A substitution whose replacement has ink keeps ink. *)
Lemma sub_from_ink (p : Re.pattern) repl :
  Str.has_ink repl = true ->
  forall t prev, Str.has_ink t = true ->
                 Str.has_ink (Re.sub_from p repl prev 0 t) = true.
Proof.
  intros Hrepl. induction t as [|c r IH]; intros prev Ht; [discriminate|].
  simpl. destruct (p prev (c :: r)) as [[|n]|].
  - simpl in *. destruct (negb (isspace c)); [reflexivity|]. apply IH, Ht.
  - rewrite has_ink_app, Hrepl. reflexivity.
  - simpl in *. destruct (negb (isspace c)); [reflexivity|]. apply IH, Ht.
Qed.

Lemma restore_parts_ink parts s :
  In s (restore_parts parts) -> Str.has_ink s = true.
Proof.
  unfold restore_parts. rewrite in_flat_map.
  intros (part & _ & Hin).
  rewrite truthy_strip in Hin.
  destruct (Str.has_ink part) eqn:Hpart; [|contradiction].
  destruct Hin as [<- | []].
  rewrite has_ink_strip. apply sub_from_ink; [reflexivity | assumption].
Qed.

(** Every sentence of the split has a character that is not whitespace. *)
Lemma sentence_split_ink ucd text s :
  In s (_improved_sentence_split ucd text) -> Str.has_ink s = true.
Proof.
  unfold _improved_sentence_split. rewrite in_flat_map.
  intros (sentence & _ & Hin). exact (restore_parts_ink _ _ Hin).
Qed.

(** * Facts about the scan *)

Section ChunkingFacts.
Variable self : ChromaVectorDatabase.

Local Abbreviation count := (_count_tokens self).
Local Abbreviation tokens := (sentence_tokens self).
Local Abbreviation MAX := (MAX_TOKENS_PER_CHUNK self).
Local Abbreviation OVERLAP := (OVERLAP_TOKENS self).

Lemma count_tokens_nonneg (text : str) : (0 <= count text)%Z.
Proof.
  unfold _count_tokens, len.
  destruct (tokenizer self) as [encode|].
  - lia.
  - apply Z.div_pos; lia.
Qed.

Lemma tokens_cons s l : tokens (s :: l) = (count s + tokens l)%Z.
Proof. reflexivity. Qed.

Lemma tokens_nil : tokens [] = 0%Z.
Proof. reflexivity. Qed.

Lemma tokens_single s : tokens [s] = count s.
Proof. unfold sentence_tokens. simpl. lia. Qed.

Lemma tokens_app l1 l2 : tokens (l1 ++ l2) = (tokens l1 + tokens l2)%Z.
Proof.
  induction l1 as [|s l1 IH]; [reflexivity|].
  rewrite <- app_comm_cons, !tokens_cons, IH. lia.
Qed.

Lemma tokens_rev l : tokens (rev l) = tokens l.
Proof.
  induction l as [|s l IH]; [reflexivity|].
  simpl rev. rewrite tokens_app, IH, tokens_single, tokens_cons. lia.
Qed.

Lemma tokens_nonneg l : (0 <= tokens l)%Z.
Proof.
  induction l as [|s l IH]; [reflexivity|].
  rewrite tokens_cons. pose proof (count_tokens_nonneg s). lia.
Qed.

(** ** The overlap loop *)

Lemma overlap_loop_spec (reversed : list str) :
  forall acc tok,
  exists taken left,
    reversed = taken ++ left /\
    overlap_loop self reversed acc tok
    = (rev taken ++ acc, (tok + tokens taken)%Z) /\
    (taken = [] \/ (tok + tokens taken <= OVERLAP)%Z) /\
    (left = [] \/
     exists s left', left = s :: left' /\
                     (tok + tokens taken + count s > OVERLAP)%Z).
Proof.
  induction reversed as [|s more IH]; intros acc tok.
  - exists [], []. simpl. rewrite Z.add_0_r. auto.
  - simpl. destruct (Z.leb_spec (tok + count s) OVERLAP) as [Hfit|Hnofit].
    + destruct (IH (s :: acc) (tok + count s)%Z)
        as (taken & left & -> & Hloop & Hle & Hmax).
      exists (s :: taken), left. rewrite Hloop, tokens_cons. simpl rev.
      rewrite <- app_assoc. simpl.
      splits.
      * reflexivity.
      * f_equal. lia.
      * right. destruct Hle as [-> | Hle].
        -- rewrite tokens_nil. lia.
        -- lia.
      * destruct Hmax as [-> | (s' & left' & -> & Hgt)]; [now left|].
        right. exists s', left'. split; [reflexivity|lia].
    + exists [], (s :: more). simpl. rewrite Z.add_0_r.
      splits; auto.
      right. exists s, more. split; [reflexivity|]. lia.
Qed.

(** The seed is the longest tail of the buffer whose token total stays
    within the overlap budget. *)
Lemma overlap_spec (buffer : list str) :
  exists before,
    buffer = before ++ overlap_seed self buffer /\
    snd (overlap self buffer) = tokens (overlap_seed self buffer) /\
    (overlap_seed self buffer = [] \/
     (tokens (overlap_seed self buffer) <= OVERLAP)%Z) /\
    (before = [] \/
     exists before' s,
       before = before' ++ [s] /\
       (count s + tokens (overlap_seed self buffer) > OVERLAP)%Z).
Proof.
  unfold overlap_seed, overlap.
  destruct (overlap_loop_spec (rev buffer) [] 0)
    as (taken & left & Hrev & -> & Hle & Hmax).
  simpl fst. simpl snd. rewrite app_nil_r, tokens_rev.
  exists (rev left). splits.
  - rewrite <- rev_app_distr, <- Hrev, rev_involutive. reflexivity.
  - lia.
  - destruct Hle as [-> | Hle]; [now left | right; lia].
  - destruct Hmax as [-> | (s & left' & -> & Hgt)]; [now left|].
    right. exists (rev left'), s. split; [reflexivity | lia].
Qed.

Lemma overlap_tokens_bounds (buffer : list str) :
  (0 <= snd (overlap self buffer) <= Z.max 0 OVERLAP)%Z.
Proof.
  destruct (overlap_spec buffer) as (before & _ & -> & Hle & _).
  pose proof (tokens_nonneg (overlap_seed self buffer)).
  destruct Hle as [-> | Hle]; [rewrite tokens_nil|]; lia.
Qed.

(** ** The invariant of the scan *)

Lemma scan_start_in_step : tokens_in_step self scan_start.
Proof. reflexivity. Qed.

Lemma scan_step_in_step st sentence :
  tokens_in_step self st -> tokens_in_step self (scan_step self st sentence).
Proof.
  unfold tokens_in_step, scan_step. intros Hst.
  destruct (oversized self sentence); [assumption|].
  destruct (finalizes self st sentence).
  - destruct (overlap_spec (current_sentences st)) as (_ & _ & Htok & _).
    destruct (overlap self (current_sentences st)) as [os ot] eqn:Hov.
    unfold overlap_seed in Htok. rewrite Hov in Htok.
    cbn [fst snd current_tokens current_sentences] in *.
    rewrite tokens_app, tokens_single, Htok. reflexivity.
  - cbn [current_tokens current_sentences].
    rewrite tokens_app, tokens_single, Hst. reflexivity.
Qed.

Lemma fold_scan_in_step sentences :
  forall st, tokens_in_step self st ->
             tokens_in_step self (fold_left (scan_step self) sentences st).
Proof.
  induction sentences as [|s rest IH]; intros st Hst; [assumption|].
  simpl. apply IH, scan_step_in_step, Hst.
Qed.
(** ** The three branches of an iteration *)

Lemma scan_step_skip st s :
  oversized self s = true -> scan_step self st s = st.
Proof. unfold scan_step. now intros ->. Qed.

Lemma scan_step_finalize st s :
  oversized self s = false -> finalizes self st s = true ->
  scan_step self st s =
  {| chunks := chunks st ++ [Str.join [Chr.space] (current_sentences st)];
     current_sentences := overlap_seed self (current_sentences st) ++ [s];
     current_tokens :=
       (snd (overlap self (current_sentences st)) + count s)%Z |}.
Proof.
  unfold scan_step, overlap_seed. intros -> ->.
  now destruct (overlap self (current_sentences st)).
Qed.

Lemma scan_step_append st s :
  oversized self s = false -> finalizes self st s = false ->
  scan_step self st s =
  {| chunks := chunks st;
     current_sentences := current_sentences st ++ [s];
     current_tokens := (current_tokens st + count s)%Z |}.
Proof. unfold scan_step. now intros -> ->. Qed.

Lemma not_oversized s : oversized self s = false -> (count s <= MAX)%Z.
Proof. unfold oversized. intros H. lia. Qed.

Lemma finalizes_nonempty st s :
  finalizes self st s = true -> current_sentences st <> [].
Proof.
  unfold finalizes. intros H Hnil. rewrite Hnil in H.
  rewrite andb_false_r in H. discriminate.
Qed.

(** A sentence is appended only when the buffer stays within the limit. *)
Lemma append_fits st s :
  tokens_in_step self st ->
  oversized self s = false -> finalizes self st s = false ->
  (current_tokens st + count s <= MAX)%Z.
Proof.
  unfold finalizes, tokens_in_step. intros Hst Hs Hfin.
  apply not_oversized in Hs.
  destruct (current_sentences st) as [|x l].
  - rewrite Hst, tokens_nil. lia.
  - simpl in Hfin. rewrite andb_true_r in Hfin. lia.
Qed.

(** ** The buffers behind the chunks *)

Lemma final_chunks_buffers sentences :
  forall st,
    final_chunks (fold_left (scan_step self) sentences st)
    = chunks st ++ map (Str.join [Chr.space]) (buffers_from self st sentences).
Proof.
  induction sentences as [|s rest IH]; intros st.
  - unfold final_chunks. simpl.
    destruct (nonempty (current_sentences st)); simpl;
      [reflexivity | now rewrite app_nil_r].
  - simpl. rewrite IH.
    destruct (oversized self s) eqn:Hs.
    + now rewrite scan_step_skip.
    + destruct (finalizes self st s) eqn:Hfin; simpl.
      * rewrite (scan_step_finalize _ _ Hs Hfin) at 1.
        cbn [chunks]. now rewrite <- app_assoc.
      * now rewrite (scan_step_append _ _ Hs Hfin) at 1.
Qed.

Lemma buffers_from_cons st s rest :
  buffers_from self st (s :: rest) =
  if negb (oversized self s) && finalizes self st s
  then current_sentences st :: buffers_from self (scan_step self st s) rest
  else buffers_from self (scan_step self st s) rest.
Proof. reflexivity. Qed.

(** The first buffer from [st] on extends the current buffer, and what is
    appended keeps the running total within the limit. *)
Lemma buffers_from_head sentences :
  forall st, tokens_in_step self st ->
    match buffers_from self st sentences with
    | [] => current_sentences st = []
    | b :: _ =>
      b <> [] /\
      exists more,
        b = current_sentences st ++ more /\
        (more = [] \/ (current_tokens st + tokens more <= MAX)%Z)
    end.
Proof.
  induction sentences as [|s rest IH]; intros st Hst.
  - simpl. destruct (current_sentences st) as [|x l] eqn:Hcur; simpl.
    + reflexivity.
    + split; [discriminate|]. exists []. now rewrite app_nil_r; auto.
  - rewrite buffers_from_cons.
    destruct (oversized self s) eqn:Hs; simpl.
    + rewrite scan_step_skip by assumption. apply IH, Hst.
    + destruct (finalizes self st s) eqn:Hfin.
      * split; [eapply finalizes_nonempty; eassumption|].
        exists []. now rewrite app_nil_r; auto.
      * pose proof (append_fits st s Hst Hs Hfin) as Hfit.
        pose proof (scan_step_in_step st s Hst) as Hst'.
        specialize (IH _ Hst').
        assert (Hcur : current_sentences (scan_step self st s)
                       = current_sentences st ++ [s])
          by now rewrite scan_step_append.
        assert (Htok : current_tokens (scan_step self st s)
                       = (current_tokens st + count s)%Z)
          by now rewrite scan_step_append.
        rewrite Hcur, Htok in IH.
        destruct (buffers_from self _ rest) as [|b bs].
        -- now destruct (current_sentences st).
        -- destruct IH as (Hb & more & -> & Hmore). split; [assumption|].
           exists (s :: more). rewrite <- app_assoc. split; [reflexivity|].
           right. rewrite tokens_cons.
           destruct Hmore as [-> | Hmore]; [rewrite tokens_nil|]; lia.
Qed.

Lemma buffers_from_nonempty sentences :
  forall st b, In b (buffers_from self st sentences) -> b <> [].
Proof.
  induction sentences as [|s rest IH]; intros st b.
  - simpl. destruct (current_sentences st) eqn:Hcur; simpl; [tauto|].
    intros [<- | []]. discriminate.
  - rewrite buffers_from_cons.
    destruct (negb (oversized self s) && finalizes self st s) eqn:Hc.
    + intros [<- | Hin]; [|eapply IH; eassumption].
      apply andb_prop in Hc. eapply finalizes_nonempty, Hc.
    + apply IH.
Qed.

Lemma overlap_seed_incl buffer x :
  In x (overlap_seed self buffer) -> In x buffer.
Proof.
  destruct (overlap_spec buffer) as (before & Heq & _).
  intros Hin. rewrite Heq. apply in_or_app. now right.
Qed.

(** Every sentence of a buffer was in the current buffer or is one of the
    sentences scanned, and is not oversized in the latter case. *)
Lemma buffers_from_incl sentences :
  forall st b x,
    In b (buffers_from self st sentences) -> In x b ->
    In x (current_sentences st) \/ (In x sentences /\ oversized self x = false).
Proof.
  induction sentences as [|s rest IH]; intros st b x.
  - simpl. destruct (nonempty (current_sentences st)); [|contradiction].
    intros [<- | []]. now left.
  - rewrite buffers_from_cons.
    destruct (oversized self s) eqn:Hs; simpl.
    + rewrite scan_step_skip by assumption. intros Hb Hx.
      destruct (IH _ _ _ Hb Hx) as [H | [H H']]; [now left | right].
      split; [now right | assumption].
    + assert (Hnext : In b (buffers_from self (scan_step self st s) rest) ->
                      In x b ->
                      In x (current_sentences st) \/
                      (In x (s :: rest) /\ oversized self x = false)).
      { intros Hb Hx. destruct (IH _ _ _ Hb Hx) as [H | [H H']].
        - destruct (finalizes self st s) eqn:Hfin.
          + rewrite (scan_step_finalize _ _ Hs Hfin) in H. simpl in H.
            apply in_app_or in H. destruct H as [H | [<- | []]].
            * left. eapply overlap_seed_incl, H.
            * right. split; [now left | assumption].
          + rewrite (scan_step_append _ _ Hs Hfin) in H. simpl in H.
            apply in_app_or in H. destruct H as [H | [<- | []]].
            * now left.
            * right. split; [now left | assumption].
        - right. split; [now right | assumption]. }
      destruct (finalizes self st s) eqn:Hfin; [|exact Hnext].
      intros [<- | Hb]; [now left | exact (Hnext Hb)].
Qed.

(** Consecutive buffers: the later one starts with the overlap seed of the
    earlier one, and what follows the seed fits the limit. *)
Lemma buffers_from_adjacent sentences :
  forall st k b b',
    tokens_in_step self st ->
    nth_error (buffers_from self st sentences) k = Some b ->
    nth_error (buffers_from self st sentences) (S k) = Some b' ->
    exists rest,
      b' = overlap_seed self b ++ rest /\ rest <> [] /\ (tokens rest <= MAX)%Z.
Proof.
  induction sentences as [|s rest IH]; intros st k b b' Hst.
  - simpl. destruct (nonempty (current_sentences st)); simpl;
      destruct k; simpl; discriminate.
  - rewrite buffers_from_cons.
    pose proof (scan_step_in_step st s Hst) as Hst'.
    destruct (oversized self s) eqn:Hs; simpl; [now apply IH|].
    destruct (finalizes self st s) eqn:Hfin; [|now apply IH].
    destruct k as [|k]; [|now apply IH].
    simpl. intros [= <-] Hb'.
    pose proof (buffers_from_head rest _ Hst') as Hhead.
    destruct (buffers_from self _ rest) as [|b0 bs]; [discriminate|].
    injection Hb' as ->.
    destruct Hhead as (_ & more & -> & Hmore).
    rewrite (scan_step_finalize _ _ Hs Hfin) in Hmore |- *.
    cbn [current_sentences current_tokens] in Hmore |- *.
    exists (s :: more). rewrite <- app_assoc. split; [reflexivity|].
    split; [discriminate|]. rewrite tokens_cons.
    pose proof (overlap_tokens_bounds (current_sentences st)).
    apply not_oversized in Hs.
    destruct Hmore as [-> | Hmore]; [rewrite tokens_nil|]; lia.
Qed.


Lemma buffers_from_total sentences :
  forall st,
    tokens_in_step self st ->
    current_sentences st = [] \/
    (current_tokens st <= MAX + Z.max 0 OVERLAP)%Z ->
    forall b, In b (buffers_from self st sentences) ->
              (tokens b <= MAX + Z.max 0 OVERLAP)%Z.
Proof.
  induction sentences as [|s rest IH]; intros st Hst Hbound b.
  - simpl. destruct (current_sentences st) as [|x l] eqn:Hcur; simpl;
      [contradiction|].
    intros [<- | []]. destruct Hbound as [Hnil | Hle]; [discriminate|].
    unfold tokens_in_step in Hst. rewrite Hcur in Hst. lia.
  - rewrite buffers_from_cons.
    pose proof (scan_step_in_step st s Hst) as Hst'.
    destruct (oversized self s) eqn:Hs; simpl.
    + rewrite scan_step_skip in * by assumption. now apply IH.
    + destruct (finalizes self st s) eqn:Hfin.
      * intros [<- | Hb].
        -- destruct Hbound as [Hnil | Hle].
           ++ now apply finalizes_nonempty in Hfin.
           ++ unfold tokens_in_step in Hst. lia.
        -- apply (IH _ Hst'); [|assumption]. right.
           rewrite (scan_step_finalize _ _ Hs Hfin). cbn [current_tokens].
           pose proof (overlap_tokens_bounds (current_sentences st)).
           apply not_oversized in Hs. lia.
      * apply (IH _ Hst'). right.
        pose proof (append_fits st s Hst Hs Hfin).
        rewrite (scan_step_append _ _ Hs Hfin). cbn [current_tokens]. lia.
Qed.

(** ** The scan without overlap budget *)

Lemma overlap_without_budget buffer :
  OVERLAP = 0%Z ->
  (forall s, In s buffer -> (0 < count s)%Z) ->
  overlap self buffer = ([], 0%Z).
Proof.
  intros Hzero Hpos. unfold overlap.
  destruct (rev buffer) as [|s more] eqn:Hrev; [reflexivity|].
  simpl. assert (Hs : (0 < count s)%Z).
  { apply Hpos, in_rev. rewrite Hrev. now left. }
  match goal with
  | |- context [(?a <=? ?b)%Z] => destruct (Z.leb_spec a b)
  end; [lia | reflexivity].
Qed.

Lemma buffers_from_partition sentences :
  OVERLAP = 0%Z ->
  forall st,
    (forall s, In s (current_sentences st ++ sentences) -> (0 < count s)%Z) ->
    concat (buffers_from self st sentences)
    = current_sentences st
      ++ filter (fun s => negb (oversized self s)) sentences.
Proof.
  intros Hzero. induction sentences as [|s rest IH]; intros st Hpos.
  - simpl. destruct (current_sentences st); simpl;
      now rewrite ?app_nil_r.
  - rewrite buffers_from_cons. simpl filter.
    destruct (oversized self s) eqn:Hs; simpl.
    + rewrite scan_step_skip by assumption. apply IH.
      intros x Hx. apply Hpos. apply in_app_or in Hx. apply in_or_app.
      destruct Hx; [now left | right; now right].
    + assert (Hnext :
                forall cur,
                  current_sentences (scan_step self st s) = cur ++ [s] ->
                  (forall x, In x cur -> In x (current_sentences st)) ->
                  concat (buffers_from self (scan_step self st s) rest)
                  = cur ++ s :: filter (fun s => negb (oversized self s)) rest).
      { intros cur Hcur Hincl. rewrite IH, Hcur, <- app_assoc; [reflexivity|].
        intros x Hx. apply Hpos. rewrite Hcur, <- app_assoc in Hx.
        apply in_app_or in Hx. apply in_or_app.
        destruct Hx as [Hx | Hx]; [left; now apply Hincl | now right]. }
      destruct (finalizes self st s) eqn:Hfin.
      * simpl. f_equal. apply (Hnext []); [|contradiction].
        rewrite (scan_step_finalize _ _ Hs Hfin). cbn [current_sentences].
        unfold overlap_seed. rewrite overlap_without_budget; [reflexivity|assumption|].
        intros x Hx. apply Hpos, in_or_app. now left.
      * apply Hnext; [|auto]. now rewrite (scan_step_append _ _ Hs Hfin).
Qed.

(** ** From the buffers to the result of the method *)

Lemma filter_all (A : Type) (f : A -> bool) (l : list A) :
  (forall x, In x l -> f x = true) -> filter f l = l.
Proof.
  induction l as [|x l IH]; intros H; [reflexivity|].
  simpl. rewrite (H x (or_introl eq_refl)), IH; [reflexivity|].
  intros y Hy. apply H. now right.
Qed.

Lemma chunk_buffers_ink sentences b :
  (forall s, In s sentences -> Str.has_ink s = true) ->
  In b (chunk_buffers self sentences) ->
  Str.has_ink (Str.join [Chr.space] b) = true.
Proof.
  intros Hink Hb. unfold chunk_buffers in Hb.
  pose proof (buffers_from_nonempty _ _ _ Hb) as Hne.
  destruct b as [|x l]; [contradiction|].
  apply (has_ink_join _ _ x); [now left|].
  destruct (buffers_from_incl _ _ _ x Hb (or_introl eq_refl)) as [[] | [Hx _]].
  apply Hink, Hx.
Qed.

(** No chunk is blank, so the final filter keeps them all, and the average
    of the diagnostic is taken of a non-empty list. *)
Lemma chunk_sentences_buffers sentences :
  (forall s, In s sentences -> Str.has_ink s = true) ->
  chunk_sentences self sentences
  = Ok (map (Str.join [Chr.space]) (chunk_buffers self sentences)).
Proof.
  intros Hink. unfold chunk_sentences.
  destruct sentences as [|s0 rest]; [reflexivity|].
  cbn [nonempty negb]. unfold scan.
  rewrite final_chunks_buffers. cbn [chunks app].
  fold (chunk_buffers self (s0 :: rest)).
  rewrite filter_all.
  - destruct (map _ (chunk_buffers self (s0 :: rest))) as [|c l];
      [reflexivity|].
    cbn [nonempty]. unfold truediv.
    destruct (Z.eqb_spec (Z.of_nat (length (c :: l))) 0) as [H|_];
      [simpl in H; lia | reflexivity].
  - intros chunk Hchunk. apply in_map_iff in Hchunk.
    destruct Hchunk as (b & <- & Hb).
    rewrite truthy_strip. now apply (chunk_buffers_ink (s0 :: rest)).
Qed.



End ChunkingFacts.

(** * Substrings *)



(** * The method as a whole *)

Lemma smart_chunk_text_buffers ucd self text :
  _smart_chunk_text ucd self text
  = Ok (map (Str.join [Chr.space])
            (chunk_buffers self (sentences_of ucd text))).
Proof.
  unfold _smart_chunk_text. apply chunk_sentences_buffers.
  intros s Hs. exact (sentence_split_ink _ _ _ Hs).
Qed.


(** * Facts about substitution *)

Section Substitution.
Variable p : Re.pattern.
Variable repl : str.




End Substitution.

(** * Occurrences *)



Lemma factor_app_l u a b : factor u a -> factor u (a ++ b).
Proof.
  intros (x & y & ->). exists x, (y ++ b). now rewrite <- !app_assoc.
Qed.

Lemma factor_app_r u a b : factor u b -> factor u (a ++ b).
Proof.
  intros (x & y & ->). exists (a ++ x), y. now rewrite <- !app_assoc.
Qed.




Lemma factor_nil_inv w : factor w [] -> w = [].
Proof.
  intros (a & b & H). symmetry in H.
  apply app_eq_nil in H. destruct H as (_ & H).
  now apply app_eq_nil in H.
Qed.


Section SubstitutionOccurrences.
Variable p : Re.pattern.
Variable repl : str.
Variable F : str -> Prop.
Hypothesis F_apart :
  forall w, F w -> w <> [] /\ forall c, In c w -> ~ In c repl.
Hypothesis repl_nonempty : repl <> [].


(** When the pattern matches wherever a word of [F] starts, no such word is
    left. *)
Hypothesis F_found :
  forall w after prev, F w -> exists n, p prev (w ++ after) = Some (S n).

End SubstitutionOccurrences.

(** * Runs *)




Lemma run_le_length f t : Str.run f t <= length t.
Proof.
  induction t as [|c t IH]; [apply Nat.le_refl|].
  simpl. destruct (f c); simpl; lia.
Qed.

(** * Whitespace *)













(** * Citations *)

Section Citations.
Variable ucd : UnicodeData.








End Citations.

(** * Literal words *)







(** * Periods *)










(** * Stripping *)









(** * [_clean_text] twice *)




Section CleanText.
Variable ucd : UnicodeData.



End CleanText.

(** * The properties of the specification *)



(** C7.  The scenario of the three sentences: the split returns exactly
    three sentences and does not split after "Dr." or "Mr.". *)
Theorem sentence_split_scenario ucd :
  _improved_sentence_split ucd
    (py "Dr. Reyes works at sea. Mr. Cruz is an OFW in Dubai. Pamilya niya ay masaya.")
  = [py "Dr. Reyes works at sea.";
     py "Mr. Cruz is an OFW in Dubai.";
     py "Pamilya niya ay masaya."].
Proof. vm_compute. reflexivity. Qed.


(** The periods inside an abbreviation are pasted into the pattern
    unescaped and match any character: "mad." is taken for "M.D.", rewritten,
    and the sentence boundary after it is lost. *)
Example abbreviation_period_is_wildcard ucd :
  _improved_sentence_split ucd (py "He was mad. Then he left.")
  = [py "He was M.D. Then he left."].
Proof. vm_compute. reflexivity. Qed.

(** C8.  At the start of every iteration of the scan, that is after any
    number [k] of sentences, the running total is the token total of the
    sentences in the buffer. *)
Theorem running_total_invariant self sentences k :
  let st := fold_left (scan_step self) (firstn k sentences) scan_start in
  current_tokens st = sentence_tokens self (current_sentences st).
Proof.
  apply (fold_scan_in_step self (firstn k sentences) scan_start).
  apply scan_start_in_step.
Qed.




(** The overlap seed comes on top of the limit: the last of these three
    chunks holds sentences of 50 and 400 tokens. *)
Lemma overlap_exceeds_limit :
  chunk_buffers fallback (sentences_of ascii_only three_sentences)
  = [[long_sentence 1598]; [long_sentence 198];
     [long_sentence 198; long_sentence 1598]] /\
  sentence_tokens fallback [long_sentence 198; long_sentence 1598] = 450%Z.
Proof. split; vm_compute; reflexivity. Qed.

(** C2.  Consecutive chunks: the buffer of the later chunk starts with the
    overlap seed of the buffer of the earlier one, in the same order, and at
    least one sentence follows it.  The seed is the tail of the earlier
    buffer taken from the end while the token total stays within
    [OVERLAP_TOKENS], and the sentence before it, if there is one, no longer
    fits. *)
Theorem overlap_seed_leads_next_chunk ucd self text k b b' :
  nth_error (chunk_buffers self (sentences_of ucd text)) k = Some b ->
  nth_error (chunk_buffers self (sentences_of ucd text)) (S k) = Some b' ->
  _smart_chunk_text ucd self text
  = Ok (map (Str.join [Chr.space])
            (chunk_buffers self (sentences_of ucd text))) /\
  (exists rest, b' = overlap_seed self b ++ rest /\ rest <> []) /\
  exists before,
    b = before ++ overlap_seed self b /\
    (overlap_seed self b = [] \/
     (sentence_tokens self (overlap_seed self b) <= OVERLAP_TOKENS self)%Z) /\
    (before = [] \/
     exists before' s,
       before = before' ++ [s] /\
       (_count_tokens self s + sentence_tokens self (overlap_seed self b)
        > OVERLAP_TOKENS self)%Z).
Proof.
  intros Hk Hk'. split; [apply smart_chunk_text_buffers|]. split.
  - destruct (buffers_from_adjacent self _ _ _ _ _
                (scan_start_in_step self) Hk Hk') as (rest & Hb' & Hne & _).
    exists rest. split; [exact Hb' | exact Hne].
  - destruct (overlap_spec self b) as (before & Hb & _ & Hle & Hmax).
    exists before. split; [exact Hb|]. split; [exact Hle | exact Hmax].
Qed.

Lemma overlap_seed_leads_next_chunk_witness :
  exists rest,
    [long_sentence 198; long_sentence 1598]
    = overlap_seed fallback [long_sentence 198] ++ rest /\ rest <> [].
Proof.
  refine (proj1 (proj2 (overlap_seed_leads_next_chunk
                          ascii_only fallback three_sentences 1
                          [long_sentence 198]
                          [long_sentence 198; long_sentence 1598] _ _)));
    vm_compute; reflexivity.
Defined.





(** C5, as amended.  Without overlap budget, and when every sentence counts
    at least one token, no overlap seed is carried over: the buffers are
    consecutive stretches of the sentences that fit the limit. *)
Theorem no_shared_sentences_without_overlap ucd self text :
  OVERLAP_TOKENS self = 0%Z ->
  Forall (fun s => (0 < _count_tokens self s)%Z) (sentences_of ucd text) ->
  _smart_chunk_text ucd self text
  = Ok (map (Str.join [Chr.space])
            (chunk_buffers self (sentences_of ucd text))) /\
  Forall (fun b => overlap_seed self b = [])
         (chunk_buffers self (sentences_of ucd text)) /\
  concat (chunk_buffers self (sentences_of ucd text))
  = filter (fun s => negb (oversized self s)) (sentences_of ucd text).
Proof.
  intros Hzero Hpos. rewrite Forall_forall in Hpos.
  split; [apply smart_chunk_text_buffers|]. split.
  - apply Forall_forall. intros b Hb. unfold overlap_seed.
    rewrite overlap_without_budget; [reflexivity | assumption |].
    intros s Hs.
    destruct (buffers_from_incl self _ _ _ s Hb Hs) as [[] | [H _]].
    apply Hpos, H.
  - apply (buffers_from_partition self (sentences_of ucd text) Hzero
                                  scan_start).
    exact Hpos.
Qed.

Lemma no_shared_sentences_without_overlap_witness :
  concat (chunk_buffers no_overlap (sentences_of ascii_only three_sentences))
  = filter (fun s => negb (oversized no_overlap s))
           (sentences_of ascii_only three_sentences).
Proof.
  refine (proj2 (proj2 (no_shared_sentences_without_overlap
                          ascii_only no_overlap three_sentences eq_refl _))).
  assert (E : sentences_of ascii_only three_sentences
              = [long_sentence 1598; long_sentence 198; long_sentence 1598])
    by (vm_compute; reflexivity).
  rewrite E. repeat constructor.
Defined.

(** C5 as stated fails: without a tokenizer a sentence of three characters
    counts no token, fits an overlap budget of zero and is carried over. *)
Lemma shared_sentence_without_overlap_counterexample :
  OVERLAP_TOKENS no_overlap = 0%Z /\
  chunk_buffers no_overlap (sentences_of ascii_only long_then_short)
  = [[long_sentence 1598; py "Ok."]; [py "Ok."; py "Done now."]] /\
  overlap_seed no_overlap [long_sentence 1598; py "Ok."] = [py "Ok."] /\
  _smart_chunk_text ascii_only no_overlap long_then_short
  = Ok [long_sentence 1598 ++ py " Ok."; py "Ok. Done now."].
Proof. splits; vm_compute; reflexivity. Qed.




Example untidy_cleaned :
  _clean_text ascii_only untidy
  = py "Kumusta ka... " ++ [Chr.quote] ++ py "Mabuti" ++ [Chr.quote]
    ++ py ", sabi niya".
Proof. vm_compute. reflexivity. Qed.
